(** * RedisClient.h: ownership protocol of pooled sockets and reply handles

    A shallow embedding of the three classes of [RedisClient.h]
    ([PooledSocket], [RedisReplyPtr], [RedisClient]) and of the helper
    struct [RedisReplyRef].

    Conventions of the embedding:
    - a C++ pointer is a number, [NULL] is [0];
    - a C++ object is a record of its data members; an object that other
      code refers to by reference lives in a finite map from addresses to
      records, and a member function reads and writes the entry of [this];
    - a function that may [throw] returns an [outcome]: [Ret] for a normal
      return, [Throw] for a propagating [std::runtime_error] (carrying its
      [what()] text), [Undef] for undefined behaviour of the C++ abstract
      machine (use of a dead object, dereference of a null pointer);
    - calls into the collaborators (hiredis, hiredispool) are recorded in a
      log carried by the state. *)

From stdpp Require Import gmap strings list fin_maps.

(** ** Outcomes and the state-and-exception monad *)

Inductive outcome (S A : Type) : Type :=
  | Ret (a : A) (s : S)
  | Throw (what : string) (s : S)
  | Undef.
Arguments Ret {S A} a s.
Arguments Throw {S A} what s.
Arguments Undef {S A}.

Definition M (S A : Type) : Type := S → outcome S A.

Definition ret {S A} (a : A) : M S A := λ s, Ret a s.
Definition throw {S A} (what : string) : M S A := λ s, Throw what s.
Definition undef {S A} : M S A := λ _, Undef.

Definition bind {S A B} (m : M S A) (k : A → M S B) : M S B :=
  λ s, match m s with
       | Ret a s' => k a s'
       | Throw e s' => Throw e s'
       | Undef => Undef
       end.

Notation "'do' x <- m ; k" := (bind m (λ x, k))
  (at level 10, x name, m at level 100, k at level 200).
Notation "m ;; k" := (bind m (λ _, k))
  (at level 100, k at level 200, right associativity).

(** The C++ rule for an automatic object with a destructor: [body] runs,
    and the destructor [cleanup] runs when the scope is left, whether
    [body] returned or an exception is propagating out of it. *)
Definition unwind {S A} (body : M S A) (cleanup : M S unit) : M S A :=
  λ s, match body s with
       | Ret a s' =>
           match cleanup s' with
           | Ret _ s'' => Ret a s''
           | Throw e s'' => Throw e s''
           | Undef => Undef
           end
       | Throw e s' =>
           match cleanup s' with
           | Ret _ s'' => Throw e s''
           | _ => Undef
           end
       | Undef => Undef
       end.

(** Pointers. *)
Definition NULL : N := 0%N.

(** ** Reply handles: [RedisReplyRef] and [RedisReplyPtr] *)

Module Reply.

(** [struct RedisReplyRef { redisReply* p; }] *)
Record RedisReplyRef : Type := mkRef { p : N }.

(** [class RedisReplyPtr { redisReply* reply; }] *)
Record RedisReplyPtr : Type := mkPtr { reply : N }.

(** The state: the live [RedisReplyPtr] objects by address, and the log of
    the calls [freeReplyObject(r)] made so far, each with the address of
    the handle whose destructor made it. *)
Record heap : Type := mkHeap {
  objs : gmap N RedisReplyPtr;
  freed : list (N * N)
}.

Definition load (this : N) : M heap RedisReplyPtr :=
  λ h, match objs h !! this with
       | Some o => Ret o h
       | None => Undef
       end.

Definition store (this : N) (o : RedisReplyPtr) : M heap unit :=
  λ h, Ret tt (mkHeap (<[this := o]> (objs h)) (freed h)).

(** Storage for a new object must not hold a live one. *)
Definition alloc (this : N) (o : RedisReplyPtr) : M heap unit :=
  λ h, match objs h !! this with
       | Some _ => Undef
       | None => Ret tt (mkHeap (<[this := o]> (objs h)) (freed h))
       end.

Definition dealloc (this : N) : M heap unit :=
  λ h, Ret tt (mkHeap (delete this (objs h)) (freed h)).

(** The call [freeReplyObject(r)] made by the destructor of [this]. *)
Definition freeReplyObject (this r : N) : M heap unit :=
  λ h, Ret tt (mkHeap (objs h) (freed h ++ [(this, r)])).

(** An address for a local temporary: one that holds no live object. *)
Definition temp_addr : M heap N :=
  λ h, Ret (fresh (dom (objs h))) h.

(** [explicit RedisReplyPtr(void* _reply = 0) : reply((redisReply* )_reply) {}] *)
Definition ctor (this : N) (_reply : N) : M heap unit :=
  alloc this (mkPtr _reply).

(** [~RedisReplyPtr() { freeReplyObject(reply); }] *)
Definition dtor (this : N) : M heap unit :=
  do o <- load this;
  freeReplyObject this (reply o) ;;
  dealloc this.

(** [redisReply* release() { redisReply* temp = reply; reply = NULL; return temp; }] *)
Definition release (this : N) : M heap N :=
  do o <- load this;
  let temp := reply o in
  store this (mkPtr NULL) ;;
  ret temp.

(** [RedisReplyPtr(RedisReplyPtr& other) { reply = other.release(); }] *)
Definition ctor_transfer (this other : N) : M heap unit :=
  do r <- release other;
  alloc this (mkPtr r).

(** [[
    RedisReplyPtr& operator=(RedisReplyPtr& other) {
        if (this == &other) return *this;
        RedisReplyPtr temp(release());
        reply = other.release();
        return *this;
    }
    ]]
    [this] and [other] are references, they denote live objects. The
    local [temp] is destroyed when the function returns. *)
Definition assign (this other : N) : M heap unit :=
  load this ;; load other ;;
  if decide (this = other) then ret tt
  else
    do old <- release this;
    do temp <- temp_addr;
    ctor temp old ;;
    unwind (do r <- release other;
            store this (mkPtr r))
           (dtor temp).

(** [RedisReplyPtr(RedisReplyRef _ref) { reply = _ref.p; }] *)
Definition ctor_ref (this : N) (_ref : RedisReplyRef) : M heap unit :=
  alloc this (mkPtr (p _ref)).

(** [[
    RedisReplyPtr& operator=(RedisReplyRef _ref) {
        if (reply == _ref.p ) return *this;
        RedisReplyPtr temp(release());
        reply = _ref.p;
        return *this;
    }
    ]] *)
Definition assign_ref (this : N) (_ref : RedisReplyRef) : M heap unit :=
  do o <- load this;
  if decide (reply o = p _ref) then ret tt
  else
    do old <- release this;
    do temp <- temp_addr;
    ctor temp old ;;
    unwind (store this (mkPtr (p _ref)))
           (dtor temp).

(** [operator RedisReplyRef() { return RedisReplyRef(release()); }] *)
Definition to_ref (this : N) : M heap RedisReplyRef :=
  do r <- release this;
  ret (mkRef r).

(** [bool notNull() const { return (reply != NULL); }] *)
Definition notNull (this : N) : M heap bool :=
  do o <- load this;
  ret (bool_decide (reply o ≠ NULL)).

(** [redisReply* get() const { return reply; }] *)
Definition get (this : N) : M heap N :=
  do o <- load this;
  ret (reply o).

(** [redisReply* operator->() const { return reply; }] *)
Definition arrow (this : N) : M heap N :=
  do o <- load this;
  ret (reply o).

(** [redisReply& operator*() const { return *reply; }]: the reference is
    the address held in [reply]; the code makes no test before the
    indirection, and an indirection through a null pointer is undefined. *)
Definition star (this : N) : M heap N :=
  do o <- load this;
  if decide (reply o = NULL) then undef else ret (reply o).

(** ** Sequences of ownership transfers *)

(** The operations that move a reply between handles. The two [_conv]
    operations go through the helper struct: [other] is converted to a
    [RedisReplyRef], from which a new handle is built or to which an
    existing one is assigned. [op_release] is a call of [release()] whose
    result, the raw pointer, is left with the caller. *)
Inductive op : Type :=
  | op_ctor_transfer (new other : N)
  | op_assign (this other : N)
  | op_release (this : N)
  | op_ctor_conv (new other : N)
  | op_assign_conv (this other : N).

(** One operation; the result lists the raw pointers handed to the caller. *)
Definition step (o : op) : M heap (list N) :=
  match o with
  | op_ctor_transfer new other => ctor_transfer new other ;; ret []
  | op_assign this other => assign this other ;; ret []
  | op_release this => do r <- release this; ret [r]
  | op_ctor_conv new other => do _ref <- to_ref other; ctor_ref new _ref ;; ret []
  | op_assign_conv this other => do _ref <- to_ref other; assign_ref this _ref ;; ret []
  end.

Fixpoint run (ops : list op) : M heap (list N) :=
  match ops with
  | [] => ret []
  | o :: ops' => do raw <- step o; do raw' <- run ops'; ret (raw ++ raw')
  end.

(** The destructors of the handles at the addresses [l], in that order. *)
Fixpoint destroy (l : list N) : M heap unit :=
  match l with
  | [] => ret tt
  | this :: l' => dtor this ;; destroy l'
  end.

(** The ways ownership leaves the handle [this]. *)
Inductive transfer : Type :=
  | by_release
  | by_ctor_transfer (new : N)
  | by_assign (target : N)
  | by_to_ref.

Definition transfer_out (tr : transfer) (this : N) : M heap unit :=
  match tr with
  | by_release => release this ;; ret tt
  | by_ctor_transfer new => ctor_transfer new this
  | by_assign target => assign target this
  | by_to_ref => to_ref this ;; ret tt
  end.

(** Two heaps used as examples: two handles holding the replies 7 and 9,
    and one empty handle. *)
Definition heap_two : heap :=
  mkHeap {[ 1%N := mkPtr 7%N; 2%N := mkPtr 9%N ]} [].

(** [heap_two] after the assignment of handle 2 to handle 1. *)
Definition heap_two_assigned : heap :=
  mkHeap {[ 1%N := mkPtr 9%N; 2%N := mkPtr NULL ]} [(3%N, 7%N)].

Definition heap_empty_handle : heap :=
  mkHeap {[ 1%N := mkPtr NULL ]} [].

(** ** Counting *)

(** How many times [freeReplyObject(r)] was called. *)
Definition nfreed (r : N) (h : heap) : nat :=
  length (filter (λ e : N * N, e.2 = r) (freed h)).

(** How many live handles hold [r]. *)
Definition holds (r : N) (ao : N * RedisReplyPtr) : Prop := reply ao.2 = r.

#[global] Instance holds_dec r ao : Decision (holds r ao).
Proof. unfold holds. apply _. Defined.

Definition nowners (r : N) (h : heap) : nat :=
  length (filter (holds r) (map_to_list (objs h))).

(** One if the object holds [r], zero if not. *)
Definition own (r : N) (o : RedisReplyPtr) : nat :=
  if decide (reply o = r) then 1 else 0.

(** How many times [r] occurs among raw pointers handed to the caller. *)
Definition nraw (r : N) (raw : list N) : nat :=
  length (filter (λ x : N, x = r) raw).

(** The addresses at which the operations construct a handle. *)
Definition constructed (o : op) : list N :=
  match o with
  | op_ctor_transfer new _ | op_ctor_conv new _ => [new]
  | op_assign _ _ | op_release _ | op_assign_conv _ _ => []
  end.

Fixpoint constructed_all (ops : list op) : list N :=
  match ops with
  | [] => []
  | o :: ops' => constructed o ++ constructed_all ops'
  end.

(** Two handles that hold the same reply 7: the state after one raw pointer
    was wrapped twice. *)
Definition heap_aliased : heap :=
  mkHeap {[ 1%N := mkPtr 7%N; 2%N := mkPtr 7%N ]} [].

End Reply.

(** ** The pool collaborator *)

Module Pool.

(** Calls into hiredispool, in the order they were made. *)
Inductive call : Type :=
  | call_get_socket (inst : N) (result : N)
  | call_release_socket (inst : N) (sock : N)
  | call_pool_destroy (inst : N).

(** The pool instances by address, each with its connections that are in
    the pool (not checked out), and the log of calls. A connection is a
    positive number [c]; the [REDIS_SOCKET*] that stands for it is
    [N.pos c], so it is never [NULL]. *)
Record world : Type := mkWorld {
  idle : gmap N (list positive);
  calls : list call
}.

(** Modelled from the spec: [redis_get_socket] of hiredispool, whose source
    is not at hand. "checkout(PoolInstance) -> Connection | PoolExhausted":
    a connection that is in the pool becomes checked out and is returned;
    when none is in the pool the result is [NULL]. *)
Definition redis_get_socket (inst : N) : M world N :=
  λ w, match idle w !! inst with
       | Some (c :: rest) =>
           Ret (N.pos c)
               (mkWorld (<[inst := rest]> (idle w))
                        (calls w ++ [call_get_socket inst (N.pos c)]))
       | Some [] =>
           Ret NULL (mkWorld (idle w) (calls w ++ [call_get_socket inst NULL]))
       | None => Undef
       end.

(** Modelled from the spec: [redis_release_socket] of hiredispool.
    "checkin(PoolInstance, Connection)": the connection is in the pool
    again. *)
Definition redis_release_socket (inst sock : N) : M world unit :=
  λ w, match idle w !! inst, sock with
       | Some l, N.pos c =>
           Ret tt (mkWorld (<[inst := c :: l]> (idle w))
                           (calls w ++ [call_release_socket inst sock]))
       | _, _ => Undef
       end.

(** Modelled from the spec: [redis_pool_destroy] of hiredispool.
    "destroyPool(PoolInstance)". *)
Definition redis_pool_destroy (inst : N) : M world unit :=
  λ w, match idle w !! inst with
       | Some _ =>
           Ret tt (mkWorld (delete inst (idle w))
                           (calls w ++ [call_pool_destroy inst]))
       | None => Undef
       end.

(** The number of connections of [inst] that are in the pool. *)
Definition pool_size (inst : N) (w : world) : nat :=
  match idle w !! inst with
  | Some l => length l
  | None => 0
  end.

End Pool.

(** ** The connection guard: [PooledSocket] *)

Module PooledSocket.
Import Pool.

(** [class PooledSocket { REDIS_INSTANCE* inst; REDIS_SOCKET* sock; }] *)
Record t : Type := mk { inst : N; sock : N }.

(** [[
    PooledSocket(REDIS_INSTANCE* _inst) : inst(_inst) {
        sock = redis_get_socket(inst);
        if (sock == NULL)
            throw std::runtime_error("Can't get socket from pool");
    }
    ]] *)
Definition ctor (_inst : N) : M world t :=
  do s <- redis_get_socket _inst;
  if decide (s = NULL) then throw "Can't get socket from pool"%string
  else ret (mk _inst s).

(** [~PooledSocket() { redis_release_socket(inst, sock); }] *)
Definition dtor (this : t) : M world unit :=
  redis_release_socket (inst this) (sock this).

(** [operator REDIS_SOCKET*() { return sock; }]: a non-const member
    function; the result and the object after the call. *)
Definition to_socket (this : t) : N * t := (sock this, this).

(** [n] conversions in a row: the results and the object after them. *)
Fixpoint conversions (n : nat) (this : t) : list N * t :=
  match n with
  | O => ([], this)
  | S n' =>
      let '(s, this') := to_socket this in
      let '(l, this'') := conversions n' this' in
      (s :: l, this'')
  end.

(** The block [{ PooledSocket socket(inst); body }]. When the constructor
    throws there is no object: neither [body] nor the destructor runs. *)
Definition scoped {A} (_inst : N) (body : t → M world A) : M world A :=
  do socket <- ctor _inst;
  unwind (body socket) (dtor socket).

(** The text of the error of a failed checkout ("PoolExhausted"). *)
Definition PoolExhausted : string := "Can't get socket from pool".

(** A pool instance at address 5 with the connections 1 and 2 in the pool. *)
Definition world_two : world := mkWorld {[ 5%N := [1%positive; 2%positive] ]} [].

(** [world_two] after the checkout of connection 1. *)
Definition world_two_out : world :=
  mkWorld {[ 5%N := [2%positive] ]} [call_get_socket 5 1].

(** A command that fails after the checkout. *)
Definition failing_body : t → M world unit := λ _, throw "connection reset"%string.

(** A pool instance at address 5 with no connection in the pool. *)
Definition world_none : world := mkWorld {[ 5%N := [] ]} [].

(** [world_none] after a checkout was tried. *)
Definition world_none_asked : world :=
  mkWorld {[ 5%N := [] ]} [call_get_socket 5 NULL].

(** A computation that leaves the pool's books as it found them, whether
    it returns or throws. *)
Definition balanced {A} (m : M world A) : Prop :=
  ∀ w, match m w with
       | Ret _ w' | Throw _ w' => idle w' = idle w
       | Undef => True
       end.

End PooledSocket.

(** ** The client handle: [RedisClient] *)

Module RedisClient.
Import Pool.

(** [class RedisClient { REDIS_INSTANCE* inst; }] *)
Record t : Type := mk { inst : N }.

Section Client.

(** [REDIS_CONFIG] and [redis_pool_create] are declared in hiredispool.h:
    the call yields the status and what it stored through [&inst]. *)
Context {REDIS_CONFIG : Type}.
Variable redis_pool_create : REDIS_CONFIG → world → (Z * N) * world.

(** [[
    RedisClient(const REDIS_CONFIG& conf) {
        if (redis_pool_create(&conf, &inst) < 0)
            throw std::runtime_error("Can't create pool");
    }
    ]] *)
Definition ctor (conf : REDIS_CONFIG) : M world t :=
  λ w, let '((rc, i), w') := redis_pool_create conf w in
       if decide (rc < 0)%Z then Throw "Can't create pool"%string w'
       else Ret (mk i) w'.

(** [~RedisClient() { redis_pool_destroy(inst); }] *)
Definition dtor (this : t) : M world unit :=
  redis_pool_destroy (inst this).

(** The lifetime of a client: [{ RedisClient client(conf); body }]. *)
Definition scoped {A} (conf : REDIS_CONFIG) (body : t → M world A) : M world A :=
  do client <- ctor conf;
  unwind (body client) (dtor client).

End Client.

Section Dispatcher.

(** The protocol collaborator: one blocking round trip on a connection,
    yielding the raw reply, [NULL] on a network or protocol failure. *)
Context {command : Type}.
Variable sendCommand : N → command → world → N * world.

(** Modelled from the spec: [RedisClient::redisCommand] is declared in
    RedisClient.h and defined in a file that is not at hand. From 4.3:
    acquire a Connection Guard (a failure propagates, nothing is sent);
    send the command on the borrowed connection; map a null raw reply to a
    CommandFailed condition; otherwise wrap the raw reply in a Reply
    Handle and return it; the guard returns the connection as the scope
    ends. *)
Definition redisCommand (this : t) (cmd : command) : M world Reply.RedisReplyPtr :=
  PooledSocket.scoped (inst this) (λ socket w,
    let '(s, socket') := PooledSocket.to_socket socket in
    let '(raw, w') := sendCommand s cmd w in
    if decide (raw = NULL) then Throw "CommandFailed"%string w'
    else Ret (Reply.mkPtr raw) w').

End Dispatcher.

(** The texts of the errors of a failed pool creation
    ("PoolCreationFailed") and of a failed command ("CommandFailed"). *)
Definition PoolCreationFailed : string := "Can't create pool".
Definition CommandFailed : string := "CommandFailed".

(** A pool creation that fails on a pool of no connections, and otherwise
    makes an instance at address 5. *)
Definition create_example (conf : nat) (w : world) : (Z * N) * world :=
  match conf with
  | O => ((-1)%Z, NULL, w)
  | S _ => (0%Z, 5%N,
            mkWorld (<[5%N := Pos.of_succ_nat <$> seq 0 conf]> (idle w)) (calls w))
  end.

(** A round trip that fails on every command. *)
Definition send_fails (s : N) (cmd : string) (w : world) : N * world := (NULL, w).

(** A command that runs with a guard on the pool of the client [this]. *)
Definition with_socket {A} (body : PooledSocket.t → M world A) (this : t) : M world A :=
  PooledSocket.scoped (inst this) body.

(** A body of a client's scope that fails. *)
Definition failing_client_body : t → M world unit :=
  λ _, throw "connection reset"%string.

End RedisClient.

(** * Properties *)

(** ** Inversion of the monad's combinators *)

Lemma bind_inv {S A B} (m : M S A) (k : A → M S B) s b s' :
  bind m k s = Ret b s' → ∃ a s1, m s = Ret a s1 ∧ k a s1 = Ret b s'.
Proof. unfold bind. destruct (m s) as [a s1| |]; [eauto | done | done]. Qed.

Lemma unwind_inv {S A} (body : M S A) (cleanup : M S unit) s a s' :
  unwind body cleanup s = Ret a s' →
  ∃ s1, body s = Ret a s1 ∧ cleanup s1 = Ret tt s'.
Proof.
  unfold unwind. destruct (body s) as [a1 s1|e s1|]; [| |done].
  - destruct (cleanup s1) as [[] s2| |] eqn:E; [|done|done].
    intros [= <- <-]. eauto.
  - destruct (cleanup s1) as [[] s2| |]; done.
Qed.

(** * Properties of the reply handles *)

Module ReplyFacts.
Import Reply.

(** ** Counting owners under the updates of the map of objects *)

Lemma count_cons r a o (l : list (N * RedisReplyPtr)) :
  length (filter (holds r) ((a, o) :: l)) = own r o + length (filter (holds r) l).
Proof.
  rewrite filter_cons. unfold own, holds at 1. simpl.
  destruct (decide (reply o = r)); reflexivity.
Qed.

Lemma count_map_insert_fresh r a o (m : gmap N RedisReplyPtr) :
  m !! a = None →
  length (filter (holds r) (map_to_list (<[a := o]> m)))
  = own r o + length (filter (holds r) (map_to_list m)).
Proof.
  intros Hfresh. rewrite (map_to_list_insert m a o Hfresh). apply count_cons.
Qed.

Lemma count_map_delete r a o (m : gmap N RedisReplyPtr) :
  m !! a = Some o →
  own r o + length (filter (holds r) (map_to_list (delete a m)))
  = length (filter (holds r) (map_to_list m)).
Proof.
  intros Hlive. rewrite <- (map_to_list_delete m a o Hlive). symmetry. apply count_cons.
Qed.

Lemma count_map_insert_live r a o o' (m : gmap N RedisReplyPtr) :
  m !! a = Some o →
  own r o + length (filter (holds r) (map_to_list (<[a := o']> m)))
  = own r o' + length (filter (holds r) (map_to_list m)).
Proof.
  intros Hlive. rewrite <- (insert_delete_eq m a o').
  rewrite count_map_insert_fresh by apply lookup_delete_eq.
  pose proof (count_map_delete r a o m Hlive). lia.
Qed.

Lemma nfreed_snoc r a x objs0 log :
  nfreed r (mkHeap objs0 (log ++ [(a, x)]))
  = nfreed r (mkHeap objs0 log) + (if decide (x = r) then 1 else 0).
Proof.
  unfold nfreed. simpl. rewrite filter_app, length_app. f_equal.
  rewrite filter_cons. simpl. destruct (decide (x = r)); reflexivity.
Qed.

Lemma nraw_app r l1 l2 : nraw r (l1 ++ l2) = nraw r l1 + nraw r l2.
Proof. unfold nraw. by rewrite filter_app, length_app. Qed.

Lemma nraw_pos r l : r ∈ l ↔ 0 < nraw r l.
Proof.
  unfold nraw. split.
  - intros Hin. assert (r ∈ filter (λ x : N, x = r) l) as Hf
      by (apply list_elem_of_filter; done).
    destruct (filter (λ x : N, x = r) l); [by apply not_elem_of_nil in Hf | simpl; lia].
  - intros Hpos. destruct (filter (λ x : N, x = r) l) as [|x l'] eqn:E; [simpl in Hpos; lia |].
    assert (x ∈ filter (λ x : N, x = r) l) as Hx by (rewrite E; left).
    apply list_elem_of_filter in Hx as [-> ?]. done.
Qed.

(** ** What each member function does to the state *)

Lemma release_live this o h :
  objs h !! this = Some o →
  release this h = Ret (reply o) (mkHeap (<[this := mkPtr NULL]> (objs h)) (freed h)).
Proof. intros Hlive. unfold release, bind, load. by rewrite Hlive. Qed.

Lemma release_inv this r h h' :
  release this h = Ret r h' →
  ∃ o, objs h !! this = Some o ∧ r = reply o
       ∧ h' = mkHeap (<[this := mkPtr NULL]> (objs h)) (freed h).
Proof.
  unfold release, bind, load. destruct (objs h !! this) as [o|]; [|done].
  simpl. intros [= <- <-]. eauto.
Qed.

Lemma dtor_live this o h :
  objs h !! this = Some o →
  dtor this h = Ret tt (mkHeap (delete this (objs h)) (freed h ++ [(this, reply o)])).
Proof. intros Hlive. unfold dtor, bind, load. by rewrite Hlive. Qed.

Lemma dtor_inv this h h' :
  dtor this h = Ret tt h' →
  ∃ o, objs h !! this = Some o
       ∧ h' = mkHeap (delete this (objs h)) (freed h ++ [(this, reply o)]).
Proof.
  unfold dtor, bind, load. destruct (objs h !! this) as [o|]; [|done].
  simpl. intros [= <-]. eauto.
Qed.

Lemma alloc_inv this o h h' :
  alloc this o h = Ret tt h' →
  objs h !! this = None ∧ h' = mkHeap (<[this := o]> (objs h)) (freed h).
Proof.
  unfold alloc. destruct (objs h !! this); [done|]. by intros [= <-].
Qed.

Lemma fresh_not_live (m : gmap N RedisReplyPtr) : m !! fresh (dom m) = None.
Proof. apply not_elem_of_dom. apply is_fresh. Qed.

(** [operator=(RedisReplyPtr&)] on two distinct live handles. *)
Lemma assign_live this other oa ob h :
  this ≠ other →
  objs h !! this = Some oa →
  objs h !! other = Some ob →
  ∃ temp,
    objs h !! temp = None ∧
    assign this other h
    = Ret tt (mkHeap (<[other := mkPtr NULL]> (<[this := ob]> (objs h)))
                     (freed h ++ [(temp, reply oa)])).
Proof.
  intros Hne Ha Hb.
  set (m1 := <[this := mkPtr NULL]> (objs h)).
  exists (fresh (dom m1)).
  assert (objs h !! fresh (dom m1) = None) as Hfresh.
  { pose proof (fresh_not_live m1) as Hf. unfold m1 in Hf.
    rewrite lookup_insert_ne in Hf; [done|].
    intros E. rewrite <- E in Hf. rewrite lookup_insert_eq in Hf. done. }
  split; [done|].
  unfold assign, bind at 1, load. rewrite Ha.
  unfold bind at 1. rewrite Hb. rewrite decide_False by done.
  unfold bind at 1. rewrite (release_live _ _ _ Ha). fold m1.
  unfold bind at 1, temp_addr. simpl.
  unfold bind at 1, ctor, alloc. simpl. rewrite fresh_not_live.
  set (t := fresh (dom m1)) in *.
  assert (t ≠ this) as Hta by (intros E; rewrite E in Hfresh; congruence).
  assert (t ≠ other) as Htb by (intros E; rewrite E in Hfresh; congruence).
  unfold unwind, bind at 1.
  erewrite release_live; last first.
  { simpl. rewrite lookup_insert_ne by done. unfold m1.
    rewrite lookup_insert_ne by done. exact Hb. }
  unfold store. simpl.
  erewrite dtor_live; last first.
  { simpl. rewrite !lookup_insert_ne by done. apply lookup_insert_eq. }
  simpl. f_equal. f_equal. destruct ob as [rb]. simpl.
  clearbody t. unfold m1. clear m1.
  apply map_eq. intros i.
  rewrite lookup_delete, !lookup_insert.
  repeat case_decide; subst; congruence.
Qed.


(** [operator=(RedisReplyPtr&)] returns only when both handles are live. *)
Lemma assign_inv this other h h' :
  assign this other h = Ret tt h' →
  ∃ oa ob, objs h !! this = Some oa ∧ objs h !! other = Some ob.
Proof.
  unfold assign, bind, load.
  destruct (objs h !! this) as [oa|]; [|done].
  destruct (objs h !! other) as [ob|]; [eauto|done].
Qed.

Lemma assign_self this o h :
  objs h !! this = Some o → assign this this h = Ret tt h.
Proof.
  intros Ha. unfold assign, bind, load. rewrite Ha. simpl. rewrite Ha. simpl.
  rewrite decide_True by done. reflexivity.
Qed.

(** [operator=(RedisReplyRef)] on a live handle that holds another pointer. *)
Lemma assign_ref_live this oa _ref h :
  objs h !! this = Some oa →
  reply oa ≠ p _ref →
  ∃ temp,
    objs h !! temp = None ∧
    assign_ref this _ref h
    = Ret tt (mkHeap (<[this := mkPtr (p _ref)]> (objs h))
                     (freed h ++ [(temp, reply oa)])).
Proof.
  intros Ha Hne.
  set (m1 := <[this := mkPtr NULL]> (objs h)).
  exists (fresh (dom m1)).
  assert (objs h !! fresh (dom m1) = None) as Hfresh.
  { pose proof (fresh_not_live m1) as Hf. unfold m1 in Hf.
    rewrite lookup_insert_ne in Hf; [done|].
    intros E. rewrite <- E in Hf. rewrite lookup_insert_eq in Hf. done. }
  split; [done|].
  unfold assign_ref, bind at 1, load. rewrite Ha. rewrite decide_False by done.
  unfold bind at 1. rewrite (release_live _ _ _ Ha). fold m1.
  unfold bind at 1, temp_addr. simpl.
  unfold bind at 1, ctor, alloc. simpl. rewrite fresh_not_live.
  set (t := fresh (dom m1)) in *.
  assert (t ≠ this) as Hta by (intros E; rewrite E in Hfresh; congruence).
  unfold unwind, store. simpl.
  erewrite dtor_live; last first.
  { simpl. rewrite lookup_insert_ne by done. apply lookup_insert_eq. }
  simpl. f_equal. f_equal.
  clearbody t. unfold m1. clear m1.
  apply map_eq. intros i.
  rewrite lookup_delete, !lookup_insert.
  repeat case_decide; subst; congruence.
Qed.

Lemma assign_ref_same this oa _ref h :
  objs h !! this = Some oa →
  reply oa = p _ref →
  assign_ref this _ref h = Ret tt h.
Proof.
  intros Ha He. unfold assign_ref, bind, load. rewrite Ha.
  rewrite decide_True by done. reflexivity.
Qed.

Lemma assign_ref_inv this _ref h h' :
  assign_ref this _ref h = Ret tt h' → ∃ oa, objs h !! this = Some oa.
Proof.
  unfold assign_ref. intros H. apply bind_inv in H as (o & h1 & Hload & _).
  unfold load in Hload. destruct (objs h !! this); [eauto | done].
Qed.

(** Assignment of the handle [b] to [a] through the helper struct, as for a
    handle returned by value: [b] is converted to a [RedisReplyRef] and
    [operator=(RedisReplyRef)] takes it. With distinct replies in the two
    handles the outcome is that of [operator=(RedisReplyPtr&)]. *)
Lemma assign_through_ref (h : heap) (a b : N) oa ob :
  a ≠ b →
  objs h !! a = Some oa →
  objs h !! b = Some ob →
  reply oa ≠ reply ob →
  ∃ temp,
    objs h !! temp = None ∧
    (do _ref <- to_ref b; assign_ref a _ref) h
    = Ret tt (mkHeap (<[a := ob]> (<[b := mkPtr NULL]> (objs h)))
                     (freed h ++ [(temp, reply oa)])).
Proof.
  intros Hne Ha Hb Hdiff.
  set (h1 := mkHeap (<[b := mkPtr NULL]> (objs h)) (freed h)).
  assert (objs h1 !! a = Some oa) as Ha1 by (simpl; by rewrite lookup_insert_ne).
  destruct (assign_ref_live a oa (mkRef (reply ob)) h1 Ha1 Hdiff) as (t & Ht & Heq).
  exists t. split.
  - simpl in Ht. rewrite lookup_insert in Ht. by case_decide.
  - unfold bind at 1, to_ref, bind at 1. rewrite (release_live _ _ _ Hb).
    fold h1. simpl. rewrite Heq. by destruct ob.
Qed.

(** ** Assignment *)

(** C3. Assignment [a = b] between two distinct live handles takes the
    reply out of [a] into a temporary, moves the reply of [b] into [a],
    leaves [b] empty, and frees the reply [a] held (through the destructor
    of the temporary) as the operator returns. Self-assignment changes
    nothing and frees nothing. *)
Theorem assign_moves_and_frees (h : heap) (a b : N) :
  (a ≠ b →
   ∀ oa ob, objs h !! a = Some oa → objs h !! b = Some ob →
     ∃ temp h',
       assign a b h = Ret tt h' ∧
       objs h !! temp = None ∧
       objs h' = <[b := mkPtr NULL]> (<[a := ob]> (objs h)) ∧
       freed h' = freed h ++ [(temp, reply oa)] ∧
       get a h' = Ret (reply ob) h' ∧
       notNull b h' = Ret false h')
  ∧ (∀ oa, objs h !! a = Some oa → assign a a h = Ret tt h).
Proof.
  split.
  - intros Hne oa ob Ha Hb.
    destruct (assign_live a b oa ob h Hne Ha Hb) as (temp & Hfresh & Hassign).
    eexists temp, _. split; [exact Hassign|]. simpl.
    repeat split; try done.
    + unfold get, bind, load. simpl.
      rewrite lookup_insert_ne by done. by rewrite lookup_insert_eq.
    + unfold notNull, bind, load. simpl. by rewrite lookup_insert_eq.
  - intros oa. apply assign_self.
Qed.

Lemma assign_moves_and_frees_witness :
  ∃ temp h',
    assign 1 2 heap_two = Ret tt h' ∧
    objs heap_two !! temp = None ∧
    objs h' = <[2%N := mkPtr NULL]> (<[1%N := mkPtr 9%N]> (objs heap_two)) ∧
    freed h' = freed heap_two ++ [(temp, 7%N)] ∧
    get 1 h' = Ret 9%N h' ∧
    notNull 2 h' = Ret false h'.
Proof.
  apply (proj1 (assign_moves_and_frees heap_two 1 2)
           ltac:(discriminate) (mkPtr 7) (mkPtr 9)); reflexivity.
Defined.

(** ** Handles that ownership has left *)

(** C7. After ownership has left a handle through [release()], through the
    transfer constructor of another handle, through assignment to another
    handle, or through the conversion to [RedisReplyRef], the handle is
    empty: [notNull()] is false, and its destructor passes [NULL] to
    [freeReplyObject], so that no reply is released by it. *)
Theorem moved_from_is_empty (tr : transfer) (this : N) (h h' : heap) :
  tr ≠ by_assign this →
  transfer_out tr this h = Ret tt h' →
  notNull this h' = Ret false h'
  ∧ ∃ h'', dtor this h' = Ret tt h''
           ∧ freed h'' = freed h' ++ [(this, NULL)]
           ∧ ∀ r, r ≠ NULL → nfreed r h'' = nfreed r h'.
Proof.
  intros Hself Hout.
  assert (objs h' !! this = Some (mkPtr NULL)) as Hempty.
  { destruct tr as [|new|target|]; simpl in Hout.
    - apply bind_inv in Hout as (r & h1 & Hrel & Hret).
      injection Hret as <-. apply release_inv in Hrel as (o & _ & _ & ->).
      simpl. apply lookup_insert_eq.
    - unfold ctor_transfer in Hout.
      apply bind_inv in Hout as (r & h1 & Hrel & Hal).
      apply release_inv in Hrel as (o & _ & _ & ->).
      apply alloc_inv in Hal as [Hnew ->]. simpl in *.
      rewrite lookup_insert_ne; [apply lookup_insert_eq|].
      intros ->. by rewrite lookup_insert_eq in Hnew.
    - assert (target ≠ this) as Hne by congruence.
      destruct (assign_inv _ _ _ _ Hout) as (oa & ob & Ha & Hb).
      destruct (assign_live _ _ _ _ _ Hne Ha Hb) as (t & _ & Heq).
      rewrite Heq in Hout. injection Hout as <-. simpl. apply lookup_insert_eq.
    - apply bind_inv in Hout as (r & h1 & Hconv & Hret). injection Hret as <-.
      unfold to_ref in Hconv. apply bind_inv in Hconv as (x & h2 & Hrel & Hret).
      injection Hret as _ <-. apply release_inv in Hrel as (o & _ & _ & ->).
      simpl. apply lookup_insert_eq. }
  split.
  - unfold notNull, bind, load. by rewrite Hempty.
  - eexists. split; [apply (dtor_live _ _ _ Hempty)|]. simpl.
    split; [done|]. intros r Hr. destruct h' as [m log]. simpl.
    rewrite nfreed_snoc. rewrite decide_False by done. unfold nfreed. simpl. lia.
Qed.

Lemma moved_from_is_empty_witness :
  notNull 2 heap_two_assigned = Ret false heap_two_assigned
  ∧ ∃ h'', dtor 2 heap_two_assigned = Ret tt h''
           ∧ freed h'' = freed heap_two_assigned ++ [(2%N, NULL)]
           ∧ ∀ r, r ≠ NULL → nfreed r h'' = nfreed r heap_two_assigned.
Proof.
  apply (moved_from_is_empty (by_assign 1) 2 heap_two heap_two_assigned);
    [discriminate | reflexivity].
Defined.

(** ** Access through an empty handle *)

(** C4, as the code has it. On an empty handle [operator->] returns the
    null pointer to the caller, with no test and no error, and leaves the
    state as it was; [operator*] applies the indirection to the null
    pointer, with no test either. Nothing is thrown. *)
Theorem access_on_empty_is_unchecked (h : heap) (this : N) :
  objs h !! this = Some (mkPtr NULL) →
  arrow this h = Ret NULL h ∧ star this h = Undef.
Proof.
  intros Hempty. unfold arrow, star, bind, load. rewrite Hempty.
  split; reflexivity.
Qed.

Lemma access_on_empty_is_unchecked_witness :
  arrow 1 heap_empty_handle = Ret NULL heap_empty_handle
  ∧ star 1 heap_empty_handle = Undef.
Proof.
  apply (access_on_empty_is_unchecked heap_empty_handle 1). reflexivity.
Defined.

(** C4, as the claim has it, fails: on the empty handle at address 1 the
    result of [operator->] is a normal return of [NULL], and neither
    operator throws. *)
Lemma access_on_empty_does_not_throw :
  objs heap_empty_handle !! 1%N = Some (mkPtr NULL)
  ∧ arrow 1 heap_empty_handle = Ret NULL heap_empty_handle
  ∧ star 1 heap_empty_handle = Undef
  ∧ ¬ (∃ what h', arrow 1 heap_empty_handle = Throw what h'
                  ∨ star 1 heap_empty_handle = Throw what h').
Proof.
  split; [reflexivity|]. split; [reflexivity|]. split; [reflexivity|].
  intros (what & h' & [H|H]); vm_compute in H; discriminate.
Qed.


(** ** Conservation of replies *)

Lemma own_null r : r ≠ NULL → own r (mkPtr NULL) = 0.
Proof. intros Hr. unfold own. simpl. by rewrite decide_False. Qed.

Lemma two_owners r a b oa ob (m : gmap N RedisReplyPtr) :
  a ≠ b → m !! a = Some oa → m !! b = Some ob →
  own r oa + own r ob ≤ length (filter (holds r) (map_to_list m)).
Proof.
  intros Hne Ha Hb.
  pose proof (count_map_delete r a oa m Ha) as H1.
  assert (delete a m !! b = Some ob) as Hb' by by rewrite lookup_delete_ne.
  pose proof (count_map_delete r b ob _ Hb') as H2. lia.
Qed.

(** A reply that at most one handle holds is neither lost nor duplicated by
    an operation: it is held by a handle, was freed, or is with the caller. *)
Lemma step_conserves r o h raw h' :
  r ≠ NULL →
  nowners r h ≤ 1 →
  step o h = Ret raw h' →
  nowners r h' + nfreed r h' + nraw r raw = nowners r h + nfreed r h.
Proof.
  intros Hr Hone Hstep. pose proof (own_null r Hr) as Hnull.
  destruct o as [new other|this other|this|new other|this other]; simpl in Hstep.
  - apply bind_inv in Hstep as ([] & h1 & H & Hret). injection Hret as <- <-.
    apply bind_inv in H as (x & h2 & Hrel & Hal).
    apply release_inv in Hrel as (ob & Hb & -> & ->).
    apply alloc_inv in Hal as [Hnew ->]. simpl in Hnew.
    unfold nowners, nfreed, nraw. simpl.
    rewrite count_map_insert_fresh by done.
    pose proof (count_map_insert_live r other ob (mkPtr NULL) _ Hb).
    change (own r (mkPtr (reply ob))) with (own r ob). lia.
  - apply bind_inv in Hstep as ([] & h1 & H & Hret). injection Hret as <- <-.
    destruct (assign_inv _ _ _ _ H) as (oa & ob & Ha & Hb).
    destruct (decide (this = other)) as [->|Hne].
    + rewrite (assign_self _ _ _ Ha) in H. injection H as <-.
      unfold nraw. simpl. lia.
    + destruct (assign_live _ _ _ _ _ Hne Ha Hb) as (t & _ & Heq).
      rewrite Heq in H. injection H as <-.
      rewrite nfreed_snoc. unfold nowners, nfreed, nraw. simpl.
      assert (<[this := ob]> (objs h) !! other = Some ob) as Hb'
        by by rewrite lookup_insert_ne.
      pose proof (count_map_insert_live r other ob (mkPtr NULL) _ Hb').
      pose proof (count_map_insert_live r this oa ob _ Ha).
      change (if decide (reply oa = r) then 1 else 0) with (own r oa). lia.
  - apply bind_inv in Hstep as (x & h1 & Hrel & Hret). injection Hret as <- <-.
    apply release_inv in Hrel as (oa & Ha & -> & ->).
    unfold nowners, nfreed, nraw. simpl. rewrite filter_cons. simpl.
    pose proof (count_map_insert_live r this oa (mkPtr NULL) _ Ha).
    unfold own in *. simpl in *. destruct (decide (reply oa = r)); simpl; lia.
  - apply bind_inv in Hstep as (_ref & h1 & Hconv & H).
    apply bind_inv in H as ([] & h2 & Hal & Hret). injection Hret as <- <-.
    apply bind_inv in Hconv as (x & h3 & Hrel & Hret). injection Hret as <- <-.
    apply release_inv in Hrel as (ob & Hb & -> & ->).
    apply alloc_inv in Hal as [Hnew ->]. simpl in Hnew.
    unfold nowners, nfreed, nraw. simpl.
    rewrite count_map_insert_fresh by done.
    pose proof (count_map_insert_live r other ob (mkPtr NULL) _ Hb).
    change (own r (mkPtr (reply ob))) with (own r ob). lia.
  - apply bind_inv in Hstep as (_ref & h1 & Hconv & H).
    apply bind_inv in H as ([] & h2 & Hasg & Hret). injection Hret as <- <-.
    apply bind_inv in Hconv as (x & h3 & Hrel & Hret). injection Hret as <- <-.
    apply release_inv in Hrel as (ob & Hb & -> & ->).
    destruct (assign_ref_inv _ _ _ _ Hasg) as (o1 & H1). simpl in H1.
    pose proof (count_map_insert_live r other ob (mkPtr NULL) _ Hb) as Hcount.
    destruct (decide (reply o1 = reply ob)) as [Hsame|Hdiff].
    + rewrite (assign_ref_same _ o1) in Hasg by done. injection Hasg as <-.
      unfold nowners, nfreed, nraw in *. simpl.
      assert (own r ob = 0) as Hob; [|lia].
      destruct (decide (this = other)) as [->|Hne].
      * rewrite lookup_insert_eq in H1. injection H1 as <-.
        unfold own. rewrite <- Hsame. simpl. by rewrite decide_False.
      * rewrite lookup_insert_ne in H1 by done.
        pose proof (two_owners r this other o1 ob _ Hne H1 Hb) as Htwo.
        unfold own in *. rewrite Hsame in Htwo.
        destruct (decide (reply ob = r)); [lia | done].
    + destruct (assign_ref_live this o1 (mkRef (reply ob)) (mkHeap _ (freed h)) H1 Hdiff)
        as (t & _ & Heq).
      rewrite Heq in Hasg. injection Hasg as <-.
      rewrite nfreed_snoc. unfold nowners, nfreed, nraw in *. simpl.
      pose proof (count_map_insert_live r this o1 (mkPtr (reply ob)) _ H1).
      change (own r (mkPtr (reply ob))) with (own r ob) in *.
      change (if decide (reply o1 = r) then 1 else 0) with (own r o1). simpl in *. lia.
Qed.

Lemma run_conserves r ops : ∀ h raw h',
  r ≠ NULL →
  nowners r h + nfreed r h ≤ 1 →
  run ops h = Ret raw h' →
  nowners r h' + nfreed r h' + nraw r raw = nowners r h + nfreed r h.
Proof.
  induction ops as [|o ops IH]; intros h raw h' Hr Hone Hrun; simpl in Hrun.
  - injection Hrun as <- <-. unfold nraw. simpl. lia.
  - apply bind_inv in Hrun as (raw1 & h1 & Hstep & H).
    apply bind_inv in H as (raw2 & h2 & Hrest & Hret). injection Hret as <- <-.
    pose proof (step_conserves r o h raw1 h1 Hr ltac:(lia) Hstep) as H1.
    pose proof (IH h1 raw2 h2 Hr ltac:(lia) Hrest) as H2.
    rewrite nraw_app. lia.
Qed.

(** The destructors of all the live handles, in any order, run to the end,
    leave no handle, and free what the handles held, each through the
    handle that held it. *)
Lemma destroy_all l : ∀ h,
  NoDup l →
  (∀ a, a ∈ l ↔ is_Some (objs h !! a)) →
  ∃ h', destroy l h = Ret tt h'
        ∧ objs h' = ∅
        ∧ (∀ r, nfreed r h' = nfreed r h + nowners r h)
        ∧ (∀ e, e ∈ freed h → e ∈ freed h')
        ∧ (∀ a o, objs h !! a = Some o → (a, reply o) ∈ freed h').
Proof.
  induction l as [|a l IH]; intros h Hnd Hl.
  - exists h. simpl. split; [done|].
    assert (objs h = ∅) as Hempty.
    { apply map_eq. intros i. rewrite lookup_empty.
      destruct (objs h !! i) eqn:E; [|done].
      assert (i ∈ @nil N) as Hi by (apply Hl; eauto). by apply not_elem_of_nil in Hi. }
    split; [done|]. split; [|split; [done|]].
    + intros r. unfold nowners. rewrite Hempty, map_to_list_empty. simpl. lia.
    + intros i o. rewrite Hempty, lookup_empty. done.
  - apply NoDup_cons in Hnd as [Hnotin Hnd].
    destruct (proj1 (Hl a) ltac:(left)) as [o Ho].
    set (h1 := mkHeap (delete a (objs h)) (freed h ++ [(a, reply o)])).
    destruct (IH h1 Hnd) as (h' & Hd & Hempty & Hcount & Hmono & Hlog).
    { intros i. simpl. rewrite lookup_delete. case_decide as Hi.
      - subst i. split; [done | by intros [? ?]].
      - rewrite <- Hl. split; [by right|]. intros Hin.
        apply elem_of_cons in Hin as [->|]; done. }
    exists h'. split; [|split; [done|split; [|split]]].
    + simpl. unfold bind. rewrite (dtor_live _ _ _ Ho). exact Hd.
    + intros r. rewrite Hcount. unfold h1. rewrite nfreed_snoc.
      unfold nowners, nfreed. simpl.
      pose proof (count_map_delete r a o _ Ho).
      change (if decide (reply o = r) then 1 else 0) with (own r o). lia.
    + intros e He. apply Hmono. simpl. apply elem_of_app. by left.
    + intros i oi Hi. destruct (decide (i = a)) as [->|Hne].
      * assert (oi = o) as -> by congruence.
        apply Hmono. simpl. apply elem_of_app. right. by left.
      * apply (Hlog i oi). simpl. by rewrite lookup_delete_ne.
Qed.

(** Without a bare [release()] no raw pointer is left with the caller. *)
Lemma run_without_release ops : ∀ h raw h',
  (∀ a, op_release a ∉ ops) →
  run ops h = Ret raw h' → raw = [].
Proof.
  induction ops as [|o ops IH]; intros h raw h' Hnone Hrun; simpl in Hrun.
  - by injection Hrun as <- _.
  - apply bind_inv in Hrun as (raw1 & h1 & Hstep & H).
    apply bind_inv in H as (raw2 & h2 & Hrest & Hret). injection Hret as <- <-.
    rewrite (IH h1 raw2 h2) by (try done; intros a Ha; apply (Hnone a); by right).
    rewrite app_nil_r.
    destruct o as [new other|this other|this|new other|this other]; simpl in Hstep.
    + apply bind_inv in Hstep as (? & ? & _ & Hret). by injection Hret as <- _.
    + apply bind_inv in Hstep as (? & ? & _ & Hret). by injection Hret as <- _.
    + destruct (Hnone this). by left.
    + apply bind_inv in Hstep as (? & ? & _ & H).
      apply bind_inv in H as (? & ? & _ & Hret). by injection Hret as <- _.
    + apply bind_inv in Hstep as (? & ? & _ & H).
      apply bind_inv in H as (? & ? & _ & Hret). by injection Hret as <- _.
Qed.

(** ** Exclusive ownership *)

(** C1, as the code has it. Take a reply [r] that exactly one handle holds
    and that was not freed, any sequence of transfer operations that runs
    to its end, and then the destructors of all live handles in any order.
    The destructors run to the end and leave no handle. [r] was passed to
    [freeReplyObject] at most once: exactly once when no [release()] left
    [r] as a raw pointer with the caller (in particular when the sequence
    has no bare [release()]), and not at all otherwise. When a handle still
    holds [r] as the destructors start, it is the destructor of that
    handle that frees [r]. *)
Theorem reply_freed_once_unless_released
    (ops : list op) (l : list N) (h0 h1 : heap) (raw : list N) (r : N) :
  r ≠ NULL →
  nowners r h0 = 1 →
  nfreed r h0 = 0 →
  run ops h0 = Ret raw h1 →
  NoDup l →
  list_to_set l = dom (objs h1) →
  ∃ h2,
    destroy l h1 = Ret tt h2
    ∧ objs h2 = ∅
    ∧ nfreed r h2 ≤ 1
    ∧ nfreed r h2 = (if decide (r ∈ raw) then 0 else 1)
    ∧ ((∀ a, op_release a ∉ ops) → nfreed r h2 = 1)
    ∧ (∀ a o, objs h1 !! a = Some o → reply o = r →
         (a, r) ∈ freed h2 ∧ nfreed r h2 = 1).
Proof.
  intros Hr Hown Hfree Hrun Hnd Hdom.
  assert (∀ a, a ∈ l ↔ is_Some (objs h1 !! a)) as Hl.
  { intros a. by rewrite <- elem_of_dom, <- Hdom, elem_of_list_to_set. }
  pose proof (run_conserves r ops h0 raw h1 Hr ltac:(lia) Hrun) as Hcons.
  destruct (destroy_all l h1 Hnd Hl) as (h2 & Hd & Hempty & Hcount & _ & Hlog).
  exists h2. split; [done|]. split; [done|].
  specialize (Hcount r).
  assert (nfreed r h2 + nraw r raw = 1) as Hsum by lia.
  split; [lia|]. split; [|split].
  - pose proof (nraw_pos r raw) as Hpos. case_decide as Hin.
    + apply Hpos in Hin. lia.
    + assert (nraw r raw = 0) as Hz; [|lia].
      destruct (nraw r raw) eqn:E; [done|]. exfalso. apply Hin, Hpos. lia.
  - intros Hnone. rewrite (run_without_release ops h0 raw h1 Hnone Hrun) in Hsum.
    unfold nraw in Hsum. simpl in Hsum. lia.
  - intros a o Ha Hrep. split.
    + rewrite <- Hrep. by apply Hlog.
    + assert (1 ≤ nowners r h1); [|lia].
      unfold nowners. pose proof (count_map_delete r a o _ Ha) as Hc.
      unfold own in Hc. rewrite decide_True in Hc by done. lia.
Qed.

Lemma reply_freed_once_unless_released_witness :
  ∃ h2,
    destroy [1%N; 2%N] heap_two_assigned = Ret tt h2
    ∧ objs h2 = ∅
    ∧ nfreed 9 h2 ≤ 1
    ∧ nfreed 9 h2 = (if decide (9%N ∈ @nil N) then 0 else 1)
    ∧ ((∀ a, op_release a ∉ [op_assign 1 2]) → nfreed 9 h2 = 1)
    ∧ (∀ a o, objs heap_two_assigned !! a = Some o → reply o = 9%N →
         (a, 9%N) ∈ freed h2 ∧ nfreed 9 h2 = 1).
Proof.
  apply (reply_freed_once_unless_released
           [op_assign 1 2] [1%N; 2%N] heap_two heap_two_assigned [] 9).
  - discriminate.
  - reflexivity.
  - reflexivity.
  - reflexivity.
  - by apply (bool_decide_unpack _); vm_compute.
  - by apply (bool_decide_unpack _); vm_compute.
Defined.

(** C1, as the claim has it, fails: one handle holds the reply 7,
    [release()] is called on it and the handle is destroyed; the reply 7 is
    never passed to [freeReplyObject]. *)
Lemma released_reply_is_not_freed :
  nowners 7 (mkHeap {[ 1%N := mkPtr 7%N ]} []) = 1
  ∧ run [op_release 1] (mkHeap {[ 1%N := mkPtr 7%N ]} [])
    = Ret [7%N] (mkHeap {[ 1%N := mkPtr NULL ]} [])
  ∧ destroy [1%N] (mkHeap {[ 1%N := mkPtr NULL ]} [])
    = Ret tt (mkHeap ∅ [(1%N, NULL)])
  ∧ nfreed 7 (mkHeap ∅ [(1%N, NULL)]) = 0.
Proof. repeat split; reflexivity. Qed.

End ReplyFacts.

(** * Properties of the connection guard *)

Module PooledSocketFacts.
Import Pool PooledSocket.

(** ** What the collaborator's calls and the members do *)

Lemma get_socket_inv _inst s w w1 :
  redis_get_socket _inst w = Ret s w1 →
  (s = NULL ∧ idle w !! _inst = Some []
   ∧ w1 = mkWorld (idle w) (calls w ++ [call_get_socket _inst NULL]))
  ∨ (∃ c rest, s = N.pos c ∧ idle w !! _inst = Some (c :: rest)
     ∧ w1 = mkWorld (<[_inst := rest]> (idle w))
                    (calls w ++ [call_get_socket _inst (N.pos c)])).
Proof.
  unfold redis_get_socket. destruct (idle w !! _inst) as [[|c rest]|]; [| |done].
  - intros [= <- <-]. by left.
  - intros [= <- <-]. right. by exists c, rest.
Qed.

Lemma ctor_inv _inst socket w w1 :
  ctor _inst w = Ret socket w1 →
  ∃ c rest, socket = mk _inst (N.pos c)
            ∧ redis_get_socket _inst w = Ret (N.pos c) w1
            ∧ idle w !! _inst = Some (c :: rest)
            ∧ w1 = mkWorld (<[_inst := rest]> (idle w))
                           (calls w ++ [call_get_socket _inst (N.pos c)]).
Proof.
  unfold ctor. intros H. apply bind_inv in H as (s & w' & Hget & H).
  pose proof Hget as Hget'.
  apply get_socket_inv in Hget as [(-> & _ & _)|(c & rest & -> & Hidle & ->)].
  - rewrite decide_True in H by done. discriminate.
  - rewrite decide_False in H by done. injection H as <- <-.
    by exists c, rest.
Qed.

(** Checking in the connection that was checked out puts the pool back as
    it was before the checkout. *)
Lemma release_after_get _inst c rest (w w2 : world) :
  idle w !! _inst = Some (c :: rest) →
  idle w2 = <[_inst := rest]> (idle w) →
  redis_release_socket _inst (N.pos c) w2
  = Ret tt (mkWorld (idle w) (calls w2 ++ [call_release_socket _inst (N.pos c)])).
Proof.
  intros Hidle H2. unfold redis_release_socket. rewrite H2, lookup_insert_eq.
  rewrite insert_insert_eq. by rewrite insert_id.
Qed.

(** The destructor of the guard the constructor built, run once the pool's
    books are again as the constructor left them. *)
Lemma dtor_after_ctor _inst socket (w w1 w2 : world) :
  ctor _inst w = Ret socket w1 →
  idle w2 = idle w1 →
  dtor socket w2
  = Ret tt (mkWorld (idle w) (calls w2 ++ [call_release_socket _inst (sock socket)])).
Proof.
  intros Hctor Hframe.
  destruct (ctor_inv _ _ _ _ Hctor) as (c & rest & -> & _ & Hidle & Hw1).
  apply (release_after_get _inst c rest); [done|]. by rewrite Hframe, Hw1.
Qed.

(** The block, once its guard is built. *)
Lemma scoped_after_ctor {A : Type} _inst (body : t → M world A) socket (w w1 : world) :
  ctor _inst w = Ret socket w1 →
  scoped _inst body w = unwind (body socket) (dtor socket) w1.
Proof. intros Hctor. unfold scoped, bind. by rewrite Hctor. Qed.

(** ** Release on every exit path *)

(** C2. Once the guard is constructed, the block that holds it leaves with
    what its body leaves with, a normal return or a propagating error, and
    in both cases the destructor has run before: the last call to the pool
    is the check-in of the guard's socket into the guard's instance. When
    the body itself left the pool's books as it found them, the pool is
    after the block what it was before it, so the number of connections in
    the pool is the same after a failing command as before it. *)
Theorem guard_released_on_every_exit {A : Type}
    (_inst : N) (body : t → M world A) (w w1 w2 : world) (socket : t) :
  ctor _inst w = Ret socket w1 →
  idle w2 = idle w1 →
  (∀ a, body socket w1 = Ret a w2 →
     ∃ w3, scoped _inst body w = Ret a w3
           ∧ calls w3 = calls w2 ++ [call_release_socket _inst (sock socket)]
           ∧ idle w3 = idle w
           ∧ pool_size _inst w3 = pool_size _inst w)
  ∧ (∀ what, body socket w1 = Throw what w2 →
     ∃ w3, scoped _inst body w = Throw what w3
           ∧ calls w3 = calls w2 ++ [call_release_socket _inst (sock socket)]
           ∧ idle w3 = idle w
           ∧ pool_size _inst w3 = pool_size _inst w).
Proof.
  intros Hctor Hframe.
  pose proof (dtor_after_ctor _ _ _ _ _ Hctor Hframe) as Hdtor.
  split.
  - intros a Hbody.
    exists (mkWorld (idle w) (calls w2 ++ [call_release_socket _inst (sock socket)])).
    split; [|done].
    rewrite (scoped_after_ctor _ _ _ _ _ Hctor). unfold unwind.
    by rewrite Hbody, Hdtor.
  - intros what Hbody.
    exists (mkWorld (idle w) (calls w2 ++ [call_release_socket _inst (sock socket)])).
    split; [|done].
    rewrite (scoped_after_ctor _ _ _ _ _ Hctor). unfold unwind.
    by rewrite Hbody, Hdtor.
Qed.

Lemma guard_released_on_every_exit_witness :
  (∀ a, failing_body (mk 5 1) world_two_out = Ret a world_two_out →
     ∃ w3, scoped 5 failing_body world_two = Ret a w3
           ∧ calls w3 = calls world_two_out ++ [call_release_socket 5 1]
           ∧ idle w3 = idle world_two
           ∧ pool_size 5 w3 = pool_size 5 world_two)
  ∧ (∀ what, failing_body (mk 5 1) world_two_out = Throw what world_two_out →
     ∃ w3, scoped 5 failing_body world_two = Throw what w3
           ∧ calls w3 = calls world_two_out ++ [call_release_socket 5 1]
           ∧ idle w3 = idle world_two
           ∧ pool_size 5 w3 = pool_size 5 world_two).
Proof.
  apply (guard_released_on_every_exit 5 failing_body
           world_two world_two_out world_two_out (mk 5 1)); reflexivity.
Defined.

(** ** Failed checkout *)

(** C6. When the checkout yields [NULL], the constructor throws the
    "Can't get socket from pool" error; no guard object comes to exist, so
    a block that was to hold the guard runs neither its body nor the
    destructor: the block leaves with that error in the state the failed
    checkout left, in which the pool's connections are as before and the
    log of pool calls has only the failed checkout added, no check-in. *)
Theorem ctor_pool_exhausted (_inst : N) (w w1 : world) :
  redis_get_socket _inst w = Ret NULL w1 →
  ctor _inst w = Throw PoolExhausted w1
  ∧ idle w1 = idle w
  ∧ calls w1 = calls w ++ [call_get_socket _inst NULL]
  ∧ ∀ (A : Type) (body : t → M world A),
      scoped _inst body w = Throw PoolExhausted w1.
Proof.
  intros Hget.
  assert (ctor _inst w = Throw PoolExhausted w1) as Hctor.
  { unfold ctor, bind. rewrite Hget. reflexivity. }
  apply get_socket_inv in Hget as [(_ & _ & ->)|(c & rest & Hc & _)]; [|done].
  split; [done|]. split; [done|]. split; [done|].
  intros A body. unfold scoped, bind. by rewrite Hctor.
Qed.

Lemma ctor_pool_exhausted_witness :
  ctor 5 world_none = Throw PoolExhausted world_none_asked
  ∧ idle world_none_asked = idle world_none
  ∧ calls world_none_asked = calls world_none ++ [call_get_socket 5 NULL]
  ∧ ∀ (A : Type) (body : t → M world A),
      scoped 5 body world_none = Throw PoolExhausted world_none_asked.
Proof.
  apply (ctor_pool_exhausted 5 world_none world_none_asked). reflexivity.
Defined.

(** ** The guard's members while it is alive *)

Lemma conversions_stable n this :
  conversions n this = (replicate n (sock this), this).
Proof.
  induction n as [|n IH]; [done|]. simpl. by rewrite IH.
Qed.

(** C10. The guard built by the constructor holds the instance it was
    given and the socket the checkout returned. However many times it is
    converted to [REDIS_SOCKET*], every conversion yields that socket and
    leaves the object as it was, and the destructor of the object they
    leave checks that socket into that instance. *)
Theorem guard_members_are_stable (_inst : N) (w w1 : world) (socket : t) (n : nat) :
  ctor _inst w = Ret socket w1 →
  ∃ s, redis_get_socket _inst w = Ret s w1
       ∧ s ≠ NULL
       ∧ inst socket = _inst
       ∧ sock socket = s
       ∧ conversions n socket = (replicate n s, socket)
       ∧ ∀ w2, dtor (conversions n socket).2 w2 = redis_release_socket _inst s w2.
Proof.
  intros Hctor.
  destruct (ctor_inv _ _ _ _ Hctor) as (c & rest & -> & Hget & _ & _).
  exists (N.pos c). rewrite conversions_stable. simpl. repeat split; done.
Qed.

Lemma guard_members_are_stable_witness :
  ∃ s, redis_get_socket 5 world_two = Ret s world_two_out
       ∧ s ≠ NULL
       ∧ inst (mk 5 1) = 5%N
       ∧ sock (mk 5 1) = s
       ∧ conversions 3 (mk 5 1) = (replicate 3 s, mk 5 1)
       ∧ ∀ w2, dtor (conversions 3 (mk 5 1)).2 w2 = redis_release_socket 5 s w2.
Proof.
  apply (guard_members_are_stable 5 world_two world_two_out (mk 5 1) 3).
  reflexivity.
Defined.

End PooledSocketFacts.

(** * Properties of the client handle *)

Module RedisClientFacts.
Import Pool RedisClient.

(** ** Failed pool creation *)

(** C9. When [redis_pool_create] reports a negative status the constructor
    throws the "Can't create pool" error. No client object comes to exist:
    a scope that was to hold the client runs neither its body nor the
    destructor, so [redis_pool_destroy] is not called for it, and the scope
    leaves with that error in the state the failed creation left. *)
Theorem ctor_pool_creation_failed {REDIS_CONFIG : Type}
    (redis_pool_create : REDIS_CONFIG → world → (Z * N) * world)
    (conf : REDIS_CONFIG) (w w1 : world) (rc : Z) (i : N) :
  redis_pool_create conf w = ((rc, i), w1) →
  (rc < 0)%Z →
  ctor redis_pool_create conf w = Throw PoolCreationFailed w1
  ∧ ∀ (A : Type) (body : t → M world A),
      scoped redis_pool_create conf body w = Throw PoolCreationFailed w1.
Proof.
  intros Hcreate Hrc.
  assert (ctor redis_pool_create conf w = Throw PoolCreationFailed w1) as Hctor.
  { unfold ctor. rewrite Hcreate. by rewrite decide_True. }
  split; [done|]. intros A body. unfold scoped, bind. by rewrite Hctor.
Qed.

Lemma ctor_pool_creation_failed_witness :
  ctor create_example 0 (mkWorld ∅ []) = Throw PoolCreationFailed (mkWorld ∅ [])
  ∧ ∀ (A : Type) (body : t → M world A),
      scoped create_example 0 body (mkWorld ∅ [])
      = Throw PoolCreationFailed (mkWorld ∅ []).
Proof.
  apply (ctor_pool_creation_failed create_example 0 (mkWorld ∅ []) (mkWorld ∅ [])
           (-1) NULL); [reflexivity | lia].
Defined.

(** ** The dispatcher *)

(** C5. A call of [redisCommand] whose round trip yields the null raw reply
    leaves with the CommandFailed error, after the connection went back to
    the pool; and whenever a call returns a handle, the handle holds a
    reply: it is never empty. *)
Theorem redisCommand_null_reply_fails {command : Type}
    (sendCommand : N → command → world → N * world)
    (this : t) (cmd : command) (w : world) :
  (∀ socket w1 w2,
     PooledSocket.ctor (inst this) w = Ret socket w1 →
     sendCommand (PooledSocket.sock socket) cmd w1 = (NULL, w2) →
     idle w2 = idle w1 →
     ∃ w3, redisCommand sendCommand this cmd w = Throw CommandFailed w3
           ∧ idle w3 = idle w)
  ∧ (∀ handle w3,
     redisCommand sendCommand this cmd w = Ret handle w3 →
     Reply.reply handle ≠ NULL).
Proof.
  split.
  - intros socket w1 w2 Hctor Hsend Hframe.
    exists (mkWorld (idle w)
              (calls w2 ++ [call_release_socket (inst this) (PooledSocket.sock socket)])).
    split; [|done].
    unfold redisCommand.
    rewrite (PooledSocketFacts.scoped_after_ctor _ _ _ _ _ Hctor).
    unfold unwind. simpl. rewrite Hsend. simpl.
    by rewrite (PooledSocketFacts.dtor_after_ctor _ _ _ _ _ Hctor Hframe).
  - intros handle w3 Hrun. unfold redisCommand, PooledSocket.scoped in Hrun.
    apply bind_inv in Hrun as (socket & w1 & _ & Hrun).
    apply unwind_inv in Hrun as (w2 & Hbody & _).
    simpl in Hbody. destruct (sendCommand _ cmd w1) as [raw w'].
    destruct (decide (raw = NULL)); [done|]. by injection Hbody as <- _.
Qed.

Lemma redisCommand_null_reply_fails_witness :
  ∃ w3, redisCommand send_fails (mk 5) "GET k"%string PooledSocket.world_two
        = Throw CommandFailed w3
        ∧ idle w3 = idle PooledSocket.world_two.
Proof.
  apply (proj1 (redisCommand_null_reply_fails send_fails (mk 5) "GET k"%string
                  PooledSocket.world_two)
           (PooledSocket.mk 5 1) PooledSocket.world_two_out
           PooledSocket.world_two_out); reflexivity.
Defined.

End RedisClientFacts.

(** * Further properties of the reply handles *)

Module HandleLifecycle.
Import Reply ReplyFacts.

(** ** Construction and destruction *)

(** X1. A handle built from a raw pointer at a free address and then
    destroyed passes that pointer to [freeReplyObject] once, and the live
    handles are afterwards those there were before. *)
Theorem wrap_then_destroy (this _reply : N) (h : heap) :
  objs h !! this = None →
  (ctor this _reply ;; dtor this) h
  = Ret tt (mkHeap (objs h) (freed h ++ [(this, _reply)])).
Proof.
  intros Hfree. unfold bind, ctor, alloc. rewrite Hfree.
  erewrite dtor_live by (simpl; apply lookup_insert_eq). simpl.
  by rewrite delete_insert_eq, delete_id.
Qed.

Lemma wrap_then_destroy_witness :
  (ctor 3 4 ;; dtor 3) heap_two
  = Ret tt (mkHeap (objs heap_two) (freed heap_two ++ [(3%N, 4%N)])).
Proof. apply (wrap_then_destroy 3 4 heap_two). reflexivity. Defined.

(** X2. The constructor from a raw pointer makes no test for another
    owner: when one raw pointer is wrapped in two handles, the destructors
    of both pass it to [freeReplyObject], so it is freed twice. *)
Theorem double_wrap_frees_twice (a b _reply : N) (h : heap) :
  a ≠ b →
  objs h !! a = None →
  objs h !! b = None →
  ∃ h', (ctor a _reply ;; ctor b _reply ;; dtor b ;; dtor a) h = Ret tt h'
        ∧ objs h' = objs h
        ∧ freed h' = freed h ++ [(b, _reply); (a, _reply)]
        ∧ nfreed _reply h' = nfreed _reply h + 2.
Proof.
  intros Hne Ha Hb.
  exists (mkHeap (objs h) (freed h ++ [(b, _reply); (a, _reply)])).
  split; [|split; [done|split; [done|]]].
  - unfold bind at 1, ctor at 1, alloc. rewrite Ha.
    unfold bind at 1, ctor, alloc. simpl. rewrite lookup_insert_ne, Hb by done.
    unfold bind. erewrite dtor_live by (simpl; apply lookup_insert_eq). simpl.
    erewrite dtor_live; last first.
    { simpl. rewrite delete_insert_eq, lookup_delete_ne by done.
      apply lookup_insert_eq. }
    simpl. f_equal. f_equal.
    + apply map_eq. intros i. rewrite !lookup_delete, !lookup_insert.
      repeat case_decide; subst; congruence.
    + by rewrite <- app_assoc.
  - unfold nfreed. simpl. rewrite filter_app, length_app.
    rewrite !filter_cons. simpl. rewrite !decide_True by done. simpl. lia.
Qed.

Lemma double_wrap_frees_twice_witness :
  ∃ h', (ctor 3 4 ;; ctor 5 4 ;; dtor 5 ;; dtor 3) heap_two = Ret tt h'
        ∧ objs h' = objs heap_two
        ∧ freed h' = freed heap_two ++ [(5%N, 4%N); (3%N, 4%N)]
        ∧ nfreed 4 h' = nfreed 4 heap_two + 2.
Proof.
  apply (double_wrap_frees_twice 3 5 4 heap_two); [discriminate | reflexivity..].
Defined.

(** ** [release()] and the observers *)

(** X4. [release()] returns what [get()] returned before it and frees
    nothing; after it [get()] returns [NULL], and a second [release()]
    returns [NULL] and changes nothing. *)
Theorem release_then_release (this r : N) (h h1 : heap) :
  release this h = Ret r h1 →
  get this h = Ret r h
  ∧ freed h1 = freed h
  ∧ get this h1 = Ret NULL h1
  ∧ release this h1 = Ret NULL h1.
Proof.
  intros Hrel. apply release_inv in Hrel as (o & Ho & -> & ->).
  split; [|split; [done|split]].
  - unfold get, bind, load. by rewrite Ho.
  - unfold get, bind, load. simpl. by rewrite lookup_insert_eq.
  - erewrite release_live by (simpl; apply lookup_insert_eq). simpl.
    by rewrite insert_insert_eq.
Qed.

Lemma release_then_release_witness :
  get 1 heap_two = Ret 7%N heap_two
  ∧ freed (mkHeap {[ 1%N := mkPtr NULL; 2%N := mkPtr 9%N ]} []) = freed heap_two
  ∧ get 1 (mkHeap {[ 1%N := mkPtr NULL; 2%N := mkPtr 9%N ]} [])
    = Ret NULL (mkHeap {[ 1%N := mkPtr NULL; 2%N := mkPtr 9%N ]} [])
  ∧ release 1 (mkHeap {[ 1%N := mkPtr NULL; 2%N := mkPtr 9%N ]} [])
    = Ret NULL (mkHeap {[ 1%N := mkPtr NULL; 2%N := mkPtr 9%N ]} []).
Proof.
  apply (release_then_release 1 7 heap_two). reflexivity.
Defined.

(** X5. [notNull()] is the test that guards the accessors: it answers true
    exactly when [get()], [operator->] and [operator*] all yield one and
    the same non-null pointer; none of the four changes the state. *)
Theorem notNull_guards_access (this : N) (h : heap) :
  notNull this h = Ret true h
  ↔ ∃ r, r ≠ NULL
         ∧ get this h = Ret r h
         ∧ arrow this h = Ret r h
         ∧ star this h = Ret r h.
Proof.
  unfold notNull, get, arrow, star, bind, load.
  destruct (objs h !! this) as [[r]|]; simpl.
  - destruct (decide (r = NULL)) as [->|Hr].
    + split; [done|]. intros (r & Hr & [= <-] & _). done.
    + rewrite bool_decide_true by done. split; [|done].
      intros _. exists r. unfold ret. done.
  - split; [done|]. by intros (r & _ & ? & _).
Qed.

(** ** Transfers through [RedisReplyRef] *)

(** X3. [operator=(RedisReplyRef)] on a live handle always leaves the handle
    holding the pointer of the [RedisReplyRef]. When the handle held that
    very pointer already, nothing at all changes and nothing is freed;
    otherwise the pointer it held is passed to [freeReplyObject] once. *)
Theorem assign_ref_keeps_or_replaces
    (this : N) (_ref : RedisReplyRef) (o : RedisReplyPtr) (h : heap) :
  objs h !! this = Some o →
  ∃ h', assign_ref this _ref h = Ret tt h'
        ∧ objs h' = <[this := mkPtr (p _ref)]> (objs h)
        ∧ (reply o = p _ref → h' = h)
        ∧ (reply o ≠ p _ref →
             ∃ temp, objs h !! temp = None
                     ∧ freed h' = freed h ++ [(temp, reply o)]).
Proof.
  intros Ho. destruct (decide (reply o = p _ref)) as [Hsame|Hdiff].
  - exists h. split; [by apply (assign_ref_same this o)|].
    split; [|split; [done|done]].
    symmetry. apply insert_id. rewrite Ho. destruct o. simpl in Hsame. by subst.
  - destruct (assign_ref_live this o _ref h Ho Hdiff) as (temp & Hfree & Heq).
    eexists. split; [exact Heq|]. simpl. split; [done|]. split; [done|].
    intros _. by exists temp.
Qed.

Lemma assign_ref_keeps_or_replaces_witness :
  ∃ h', assign_ref 1 (mkRef 7) heap_two = Ret tt h'
        ∧ objs h' = <[1%N := mkPtr 7%N]> (objs heap_two)
        ∧ (7%N = 7%N → h' = heap_two)
        ∧ (7%N ≠ 7%N →
             ∃ temp, objs heap_two !! temp = None
                     ∧ freed h' = freed heap_two ++ [(temp, 7%N)]).
Proof.
  apply (assign_ref_keeps_or_replaces 1 (mkRef 7) (mkPtr 7) heap_two).
  reflexivity.
Defined.

(** X6. Building a handle from another through the helper struct (the
    conversion to [RedisReplyRef], then the constructor from it) is the
    transfer constructor: on every state the two do the same. With a live
    source and a free address, the new handle holds what the source held,
    the source is empty and nothing is freed. *)
Theorem ctor_through_ref_is_transfer (new other : N) (h : heap) :
  (do _ref <- to_ref other; ctor_ref new _ref) h = ctor_transfer new other h
  ∧ ∀ ob, objs h !! other = Some ob → objs h !! new = None →
      ctor_transfer new other h
      = Ret tt (mkHeap (<[new := ob]> (<[other := mkPtr NULL]> (objs h)))
                       (freed h)).
Proof.
  split.
  - unfold ctor_transfer, to_ref, ctor_ref, bind.
    by destruct (release other h).
  - intros ob Hb Hnew. unfold ctor_transfer, bind.
    rewrite (release_live _ _ _ Hb). unfold alloc. simpl.
    rewrite lookup_insert_ne by congruence. rewrite Hnew. by destruct ob.
Qed.

(** X12. Assigning a handle to itself through the helper struct (the handle
    is converted to a [RedisReplyRef], which is assigned back to it) leaves
    every handle holding what it held and frees no reply. *)
Theorem self_assign_through_ref (this : N) (o : RedisReplyPtr) (h : heap) :
  objs h !! this = Some o →
  ∃ h', (do _ref <- to_ref this; assign_ref this _ref) h = Ret tt h'
        ∧ objs h' = objs h
        ∧ ∀ r, r ≠ NULL → nfreed r h' = nfreed r h.
Proof.
  intros Ho.
  set (h1 := mkHeap (<[this := mkPtr NULL]> (objs h)) (freed h)).
  assert (objs h1 !! this = Some (mkPtr NULL)) as H1 by apply lookup_insert_eq.
  assert ((do _ref <- to_ref this; assign_ref this _ref) h
          = assign_ref this (mkRef (reply o)) h1) as Hrun.
  { unfold bind at 1, to_ref, bind at 1.
    by rewrite (release_live _ _ _ Ho). }
  rewrite Hrun.
  destruct (decide (reply o = NULL)) as [Hnull|Hnn].
  - exists h1. split; [|split; [|done]].
    + apply (assign_ref_same this (mkPtr NULL)); [done|]. simpl. congruence.
    + simpl. apply insert_id. rewrite Ho. destruct o. simpl in Hnull. by subst.
  - destruct (assign_ref_live this (mkPtr NULL) (mkRef (reply o)) h1 H1)
      as (temp & _ & Heq); [simpl; congruence|].
    eexists. split; [exact Heq|]. simpl. split.
    + rewrite insert_insert_eq. apply insert_id. rewrite Ho. by destruct o.
    + intros r Hr. rewrite nfreed_snoc. rewrite decide_False by done.
      unfold nfreed. simpl. lia.
Qed.

Lemma self_assign_through_ref_witness :
  ∃ h', (do _ref <- to_ref 1; assign_ref 1 _ref) heap_two = Ret tt h'
        ∧ objs h' = objs heap_two
        ∧ ∀ r, r ≠ NULL → nfreed r h' = nfreed r heap_two.
Proof.
  apply (self_assign_through_ref 1 (mkPtr 7) heap_two). reflexivity.
Defined.

(** ** Exclusive ownership along a sequence of transfers *)

(** X7. Take a reply that exactly one handle holds and that was not freed,
    and any sequence of transfer operations that runs to its end. A handle
    that holds the reply afterwards is the only one that does, and the reply
    has neither been freed nor been left with the caller: no handle is ever
    left holding a freed reply. *)
Theorem owner_stays_unique_and_reply_unfreed
    (ops : list op) (h0 h1 : heap) (raw : list N) (r a : N) (o : RedisReplyPtr) :
  r ≠ NULL →
  nowners r h0 = 1 →
  nfreed r h0 = 0 →
  run ops h0 = Ret raw h1 →
  objs h1 !! a = Some o →
  reply o = r →
  nfreed r h1 = 0
  ∧ (r ∉ raw)
  ∧ ∀ a' o', objs h1 !! a' = Some o' → reply o' = r → a' = a.
Proof.
  intros Hr Hown Hfree Hrun Ha Hrep.
  pose proof (run_conserves r ops h0 raw h1 Hr ltac:(lia) Hrun) as Hcons.
  assert (own r o = 1) as Ho by (unfold own; by rewrite decide_True).
  pose proof (count_map_delete r a o _ Ha) as Hc. unfold nowners in *.
  split; [lia|]. split.
  - intros Hin. apply nraw_pos in Hin. lia.
  - intros a' o' Ha' Hrep'. destruct (decide (a' = a)) as [|Hne]; [done|].
    assert (own r o' = 1) as Ho' by (unfold own; by rewrite decide_True).
    pose proof (two_owners r a' a o' o _ Hne Ha' Ha). lia.
Qed.

Lemma owner_stays_unique_and_reply_unfreed_witness :
  nfreed 9 heap_two_assigned = 0
  ∧ (9%N ∉ @nil N)
  ∧ ∀ a' o', objs heap_two_assigned !! a' = Some o' → reply o' = 9%N → a' = 1%N.
Proof.
  apply (owner_stays_unique_and_reply_unfreed
           [op_assign 1 2] heap_two heap_two_assigned [] 9 1 (mkPtr 9));
    (discriminate || reflexivity).
Defined.

(** X8. Exclusive ownership is a precondition of [operator=(RedisReplyPtr&)]:
    when two distinct handles hold the same pointer, [a = b] passes that
    pointer to [freeReplyObject] and leaves [a] holding it. *)
Theorem assign_between_aliases_dangles
    (a b : N) (oa ob : RedisReplyPtr) (h : heap) :
  a ≠ b →
  objs h !! a = Some oa →
  objs h !! b = Some ob →
  reply oa = reply ob →
  ∃ temp h', assign a b h = Ret tt h'
             ∧ get a h' = Ret (reply ob) h'
             ∧ freed h' = freed h ++ [(temp, reply ob)].
Proof.
  intros Hne Ha Hb Hsame.
  destruct (assign_live a b oa ob h Hne Ha Hb) as (temp & _ & Heq).
  eexists temp, _. split; [exact Heq|]. split.
  - unfold get, bind, load. simpl.
    rewrite lookup_insert_ne by done. by rewrite lookup_insert_eq.
  - simpl. by rewrite Hsame.
Qed.

Lemma assign_between_aliases_dangles_witness :
  ∃ temp h', assign 1 2 heap_aliased = Ret tt h'
             ∧ get 1 h' = Ret 7%N h'
             ∧ freed h' = freed heap_aliased ++ [(temp, 7%N)].
Proof.
  apply (assign_between_aliases_dangles 1 2 (mkPtr 7) (mkPtr 7) heap_aliased);
    (discriminate || reflexivity).
Defined.

(** ** The live handles along a sequence of transfers *)

#[local] Set Warnings "-clear-no-such-hyp".

Lemma step_live_handles o h raw h' :
  step o h = Ret raw h' →
  dom (objs h') = dom (objs h) ∪ list_to_set (constructed o).
Proof.
  intros Hstep.
  destruct o as [new other|this other|this|new other|this other]; simpl in Hstep.
  - apply bind_inv in Hstep as ([] & h1 & H & Hret). injection Hret as _ <-.
    apply bind_inv in H as (x & h2 & Hrel & Hal).
    apply release_inv in Hrel as (ob & Hb & -> & ->).
    apply alloc_inv in Hal as [_ ->]. simpl.
    apply (elem_of_dom_2 (D := gset N)) in Hb.
    rewrite !dom_insert_L. set_solver.
  - apply bind_inv in Hstep as ([] & h1 & H & Hret). injection Hret as _ <-.
    destruct (assign_inv _ _ _ _ H) as (oa & ob & Ha & Hb).
    destruct (decide (this = other)) as [->|Hne].
    + rewrite (assign_self _ _ _ Ha) in H. injection H as <-. simpl. set_solver.
    + destruct (assign_live _ _ _ _ _ Hne Ha Hb) as (t & _ & Heq).
      rewrite Heq in H. injection H as <-. simpl.
      apply (elem_of_dom_2 (D := gset N)) in Ha, Hb.
      rewrite !dom_insert_L. set_solver.
  - apply bind_inv in Hstep as (x & h1 & Hrel & Hret). injection Hret as _ <-.
    apply release_inv in Hrel as (oa & Ha & -> & ->). simpl.
    apply (elem_of_dom_2 (D := gset N)) in Ha.
    rewrite !dom_insert_L. set_solver.
  - apply bind_inv in Hstep as (_ref & h1 & Hconv & H).
    apply bind_inv in H as ([] & h2 & Hal & Hret). injection Hret as _ <-.
    apply bind_inv in Hconv as (x & h3 & Hrel & Hret). injection Hret as <- <-.
    apply release_inv in Hrel as (ob & Hb & -> & ->).
    apply alloc_inv in Hal as [_ ->]. simpl.
    apply (elem_of_dom_2 (D := gset N)) in Hb.
    rewrite !dom_insert_L. set_solver.
  - apply bind_inv in Hstep as (_ref & h1 & Hconv & H).
    apply bind_inv in H as ([] & h2 & Hasg & Hret). injection Hret as _ <-.
    apply bind_inv in Hconv as (x & h3 & Hrel & Hret). injection Hret as <- <-.
    apply release_inv in Hrel as (ob & Hb & -> & ->).
    destruct (assign_ref_inv _ _ _ _ Hasg) as (o1 & H1).
    apply (elem_of_dom_2 (D := gset N)) in Hb.
    destruct (decide (reply o1 = reply ob)) as [Hsame|Hdiff].
    + rewrite (assign_ref_same _ o1) in Hasg by done. injection Hasg as <-.
      simpl. rewrite !dom_insert_L. set_solver.
    + destruct (assign_ref_live this o1 (mkRef (reply ob)) (mkHeap _ (freed h)) H1 Hdiff)
        as (t & _ & Heq).
      rewrite Heq in Hasg. injection Hasg as <-. simpl in *.
      apply (elem_of_dom_2 (D := gset N)) in H1.
      rewrite dom_insert_L in H1. rewrite !dom_insert_L. set_solver.
Qed.

(** X13. After a sequence of transfer operations that runs to its end the
    live handles are those that were live before it and those the
    sequence constructed: no operation ends the life of a handle, and the
    temporaries of the assignment operators are all destroyed again. *)
Theorem run_live_handles (ops : list op) (h : heap) (raw : list N) (h' : heap) :
  run ops h = Ret raw h' →
  dom (objs h') = dom (objs h) ∪ list_to_set (constructed_all ops).
Proof.
  revert h raw h'. induction ops as [|o ops IH]; intros h raw h' Hrun; simpl in Hrun.
  - injection Hrun as _ <-. simpl. set_solver.
  - apply bind_inv in Hrun as (raw1 & h1 & Hstep & H).
    apply bind_inv in H as (raw2 & h2 & Hrest & Hret). injection Hret as _ <-.
    rewrite (IH _ _ _ Hrest), (step_live_handles _ _ _ _ Hstep). simpl.
    rewrite list_to_set_app_L. set_solver.
Qed.

Lemma run_live_handles_witness :
  dom (objs heap_two_assigned)
  = dom (objs heap_two) ∪ list_to_set (constructed_all [op_assign 1 2]).
Proof.
  apply (run_live_handles [op_assign 1 2] heap_two [] heap_two_assigned).
  reflexivity.
Defined.

End HandleLifecycle.

(** * Further properties of the scopes *)

Module ScopeFacts.
Import Pool.

(** ** Blocks that hold a guard *)

Lemma guard_ctor_throw_inv _inst what (w w1 : world) :
  PooledSocket.ctor _inst w = Throw what w1 → idle w1 = idle w.
Proof.
  unfold PooledSocket.ctor, bind, redis_get_socket.
  destruct (idle w !! _inst) as [[|c rest]|]; [| |done].
  - rewrite decide_True by done. by intros [= _ <-].
  - by rewrite decide_False.
Qed.

(** X9. A block that holds a guard leaves the pool's books as it found
    them on every way out, provided its body does: when the checkout fails,
    when the body returns, and when an error propagates out of the body.
    So blocks with guards can be nested and put in sequence without a
    connection staying checked out. *)
Theorem scoped_is_balanced {A : Type} (_inst : N) (body : PooledSocket.t → M world A) :
  (∀ socket, PooledSocket.balanced (body socket)) →
  PooledSocket.balanced (PooledSocket.scoped _inst body).
Proof.
  intros Hbody w. unfold PooledSocket.scoped, bind.
  destruct (PooledSocket.ctor _inst w) as [socket w1|what w1|] eqn:Hctor; [| |done].
  - unfold unwind. specialize (Hbody socket w1).
    destruct (body socket w1) as [a w2|what w2|]; [| |done].
    + by rewrite (PooledSocketFacts.dtor_after_ctor _ _ _ _ _ Hctor Hbody).
    + by rewrite (PooledSocketFacts.dtor_after_ctor _ _ _ _ _ Hctor Hbody).
  - by apply guard_ctor_throw_inv in Hctor.
Qed.

Lemma scoped_is_balanced_witness :
  PooledSocket.balanced (PooledSocket.scoped 5 PooledSocket.failing_body).
Proof.
  apply (scoped_is_balanced 5 PooledSocket.failing_body).
  intros socket w. reflexivity.
Defined.

(** ** The scope of a client *)

Lemma client_ctor_ok {REDIS_CONFIG : Type}
    (redis_pool_create : REDIS_CONFIG → world → (Z * N) * world)
    (conf : REDIS_CONFIG) (w w1 : world) (rc : Z) (i : N) :
  redis_pool_create conf w = ((rc, i), w1) →
  (0 ≤ rc)%Z →
  RedisClient.ctor redis_pool_create conf w = Ret (RedisClient.mk i) w1.
Proof.
  intros Hcreate Hrc. unfold RedisClient.ctor. rewrite Hcreate.
  rewrite decide_False by lia. reflexivity.
Qed.

Lemma pool_destroy_live i l (w : world) :
  idle w !! i = Some l →
  redis_pool_destroy i w
  = Ret tt (mkWorld (delete i (idle w)) (calls w ++ [call_pool_destroy i])).
Proof. intros Hl. unfold redis_pool_destroy. by rewrite Hl. Qed.

(** X10. When [redis_pool_create] reports a status that is not negative,
    the constructor yields a client that holds the instance the creation
    stored, and the scope of that client ends, on a normal return of its
    body and on an error propagating out of it alike, with the call
    [redis_pool_destroy] on that instance as the last call to the pool. *)
Theorem client_scope_destroys_pool {REDIS_CONFIG A : Type}
    (redis_pool_create : REDIS_CONFIG → world → (Z * N) * world)
    (conf : REDIS_CONFIG) (body : RedisClient.t → M world A)
    (w w1 w2 : world) (rc : Z) (i : N) (l : list positive) :
  redis_pool_create conf w = ((rc, i), w1) →
  (0 ≤ rc)%Z →
  idle w2 !! i = Some l →
  RedisClient.ctor redis_pool_create conf w = Ret (RedisClient.mk i) w1
  ∧ (∀ a, body (RedisClient.mk i) w1 = Ret a w2 →
       RedisClient.scoped redis_pool_create conf body w
       = Ret a (mkWorld (delete i (idle w2)) (calls w2 ++ [call_pool_destroy i])))
  ∧ (∀ what, body (RedisClient.mk i) w1 = Throw what w2 →
       RedisClient.scoped redis_pool_create conf body w
       = Throw what (mkWorld (delete i (idle w2)) (calls w2 ++ [call_pool_destroy i]))).
Proof.
  intros Hcreate Hrc Hlive.
  pose proof (client_ctor_ok _ _ _ _ _ _ Hcreate Hrc) as Hctor.
  split; [done|]. split.
  - intros a Hbody. unfold RedisClient.scoped, bind. rewrite Hctor.
    unfold unwind. rewrite Hbody. unfold RedisClient.dtor. simpl.
    by rewrite (pool_destroy_live i l).
  - intros what Hbody. unfold RedisClient.scoped, bind. rewrite Hctor.
    unfold unwind. rewrite Hbody. unfold RedisClient.dtor. simpl.
    by rewrite (pool_destroy_live i l).
Qed.

Lemma client_scope_destroys_pool_witness :
  RedisClient.ctor RedisClient.create_example 2 (mkWorld ∅ [])
  = Ret (RedisClient.mk 5) PooledSocket.world_two
  ∧ (∀ a, RedisClient.failing_client_body (RedisClient.mk 5) PooledSocket.world_two
          = Ret a PooledSocket.world_two →
       RedisClient.scoped RedisClient.create_example 2
         RedisClient.failing_client_body (mkWorld ∅ [])
       = Ret a (mkWorld (delete 5%N (idle PooledSocket.world_two))
                  (calls PooledSocket.world_two ++ [call_pool_destroy 5])))
  ∧ (∀ what, RedisClient.failing_client_body (RedisClient.mk 5) PooledSocket.world_two
             = Throw what PooledSocket.world_two →
       RedisClient.scoped RedisClient.create_example 2
         RedisClient.failing_client_body (mkWorld ∅ [])
       = Throw what (mkWorld (delete 5%N (idle PooledSocket.world_two))
                       (calls PooledSocket.world_two ++ [call_pool_destroy 5]))).
Proof.
  apply (client_scope_destroys_pool RedisClient.create_example 2
           RedisClient.failing_client_body
           (mkWorld ∅ []) PooledSocket.world_two PooledSocket.world_two
           0 5 [1%positive; 2%positive]); [reflexivity | lia | reflexivity].
Defined.

(** X11. A command that runs with a guard inside the scope of a client:
    whether the command returns or an error propagates out of it, the
    guard's socket is checked in first and the pool is destroyed after
    it, and these are the last two calls to the pool. *)
Theorem command_in_client_scope {REDIS_CONFIG A : Type}
    (redis_pool_create : REDIS_CONFIG → world → (Z * N) * world)
    (conf : REDIS_CONFIG) (body : PooledSocket.t → M world A)
    (w w1 w2 w3 : world) (rc : Z) (i : N) (socket : PooledSocket.t) :
  redis_pool_create conf w = ((rc, i), w1) →
  (0 ≤ rc)%Z →
  PooledSocket.ctor i w1 = Ret socket w2 →
  idle w3 = idle w2 →
  (∀ a, body socket w2 = Ret a w3 →
     RedisClient.scoped redis_pool_create conf (RedisClient.with_socket body) w
     = Ret a (mkWorld (delete i (idle w1))
                (calls w3 ++ [call_release_socket i (PooledSocket.sock socket);
                              call_pool_destroy i])))
  ∧ (∀ what, body socket w2 = Throw what w3 →
     RedisClient.scoped redis_pool_create conf (RedisClient.with_socket body) w
     = Throw what (mkWorld (delete i (idle w1))
                     (calls w3 ++ [call_release_socket i (PooledSocket.sock socket);
                                   call_pool_destroy i]))).
Proof.
  intros Hcreate Hrc Hguard Hframe.
  pose proof (client_ctor_ok _ _ _ _ _ _ Hcreate Hrc) as Hctor.
  pose proof (PooledSocketFacts.dtor_after_ctor _ _ _ _ _ Hguard Hframe) as Hdtor.
  destruct (PooledSocketFacts.ctor_inv _ _ _ _ Hguard)
    as (c & rest & _ & _ & Hlive & _).
  assert (∀ log, redis_pool_destroy i (mkWorld (idle w1) log)
                 = Ret tt (mkWorld (delete i (idle w1)) (log ++ [call_pool_destroy i])))
    as Hdestroy by (intros log; by apply (pool_destroy_live i (c :: rest))).
  split.
  - intros a Hbody. unfold RedisClient.scoped, bind. rewrite Hctor.
    unfold unwind at 1, RedisClient.with_socket. simpl.
    rewrite (PooledSocketFacts.scoped_after_ctor _ _ _ _ _ Hguard).
    unfold unwind. rewrite Hbody, Hdtor. unfold RedisClient.dtor. simpl.
    rewrite Hdestroy. by rewrite <- app_assoc.
  - intros what Hbody. unfold RedisClient.scoped, bind. rewrite Hctor.
    unfold unwind at 1, RedisClient.with_socket. simpl.
    rewrite (PooledSocketFacts.scoped_after_ctor _ _ _ _ _ Hguard).
    unfold unwind. rewrite Hbody, Hdtor. unfold RedisClient.dtor. simpl.
    rewrite Hdestroy. by rewrite <- app_assoc.
Qed.

Lemma command_in_client_scope_witness :
  (∀ a, PooledSocket.failing_body (PooledSocket.mk 5 1) PooledSocket.world_two_out
        = Ret a PooledSocket.world_two_out →
     RedisClient.scoped RedisClient.create_example 2
       (RedisClient.with_socket PooledSocket.failing_body) (mkWorld ∅ [])
     = Ret a (mkWorld (delete 5%N (idle PooledSocket.world_two))
                (calls PooledSocket.world_two_out
                 ++ [call_release_socket 5 1; call_pool_destroy 5])))
  ∧ (∀ what, PooledSocket.failing_body (PooledSocket.mk 5 1) PooledSocket.world_two_out
             = Throw what PooledSocket.world_two_out →
     RedisClient.scoped RedisClient.create_example 2
       (RedisClient.with_socket PooledSocket.failing_body) (mkWorld ∅ [])
     = Throw what (mkWorld (delete 5%N (idle PooledSocket.world_two))
                     (calls PooledSocket.world_two_out
                      ++ [call_release_socket 5 1; call_pool_destroy 5]))).
Proof.
  apply (command_in_client_scope RedisClient.create_example 2
           PooledSocket.failing_body
           (mkWorld ∅ []) PooledSocket.world_two PooledSocket.world_two_out
           PooledSocket.world_two_out 0 5 (PooledSocket.mk 5 1));
    [reflexivity | lia | reflexivity | reflexivity].
Defined.

End ScopeFacts.
